(** * bench/micro_load.c: the modulo-wrapped read benchmark

    A shallow embedding of [main] of [bench/micro_load.c] and the
    properties of its printed result.

    Machine model (LP64, two's complement): [long] and [size_t] are 64 bits,
    [int] is 32 bits.  Values are mathematical integers ([Z]); every place
    where the C code narrows or can wrap has the reduction written out:
    - [A[i]=i] converts [long] to [int] by keeping the low 32 bits;
    - [sink += ...] is an [int] addition that wraps around;
    - [size * sizeof(int)] is computed in [size_t], modulo [2^64];
    - the loop counters are incremented below a [long] bound, so they
      never leave the range of [long].
    Accesses through a null pointer or outside the allocated block, and a
    remainder by zero, end the run with a [Fault]. *)

From Stdlib Require Import ZArith Lia String Ascii List DecimalString DecimalPos.
From stdpp Require Import base option list.

Local Open Scope Z_scope.

(** ** Machine integers *)

Module Mach.

Definition long_min : Z := - 2 ^ 63.
Definition long_max : Z := 2 ^ 63 - 1.
Definition int_min : Z := - 2 ^ 31.
Definition int_max : Z := 2 ^ 31 - 1.
Definition size_modulus : Z := 2 ^ 64.
Definition int_modulus : Z := 2 ^ 32.

(** [sizeof(int)] *)
Definition sizeof_int : Z := 4.

(** The value of an [int] object holding the low 32 bits of [z]: the
    result of the conversion [long -> int] in [A[i]=i] and of the [int]
    addition in [sink += ...]. *)
Definition to_int (z : Z) : Z :=
  (z + 2 ^ 31) mod int_modulus - 2 ^ 31.

(** Conversion to [size_t] and the [size_t] product in
    [size * sizeof(int)]. *)
Definition to_size_t (z : Z) : Z := z mod size_modulus.

Definition size_mul (a b : Z) : Z := to_size_t (to_size_t a * to_size_t b).

(** [a + b] on two [int]s. *)
Definition int_add (a b : Z) : Z := to_int (a + b).

End Mach.

Export Mach.

(** ** Outcomes of a run *)

(** The ways the program can leave defined behaviour. *)
Inductive fault : Type :=
| NullDeref      (* access through the null pointer malloc returned *)
| OutOfBounds    (* access outside the allocated block *)
| DivByZero.     (* [i % size] with [size = 0], or [LONG_MIN % -1] *)

Inductive result (X : Type) : Type :=
| Ok (x : X)
| Fault (f : fault).

Arguments Ok {X} x.
Arguments Fault {X} f.

#[global] Instance result_ret : MRet result := fun X x => Ok x.

#[global] Instance result_bind : MBind result := fun X Y k r =>
  match r with
  | Ok x => k x
  | Fault f => Fault f
  end.

(** What the process leaves behind when [main] returns: its exit status and
    everything written to standard output. *)
Record exit : Type := Exit { status : Z; stdout : string }.

(** ** The environment: libc *)

(** [malloc] either refuses a request (null pointer) or hands out a block
    whose contents are whatever the allocator left there.  A run is
    parameterised by the largest request the allocator grants and by the
    stale contents of fresh memory. *)
Record env : Type := Env {
  heap_limit : Z;
  stale : nat -> Z
}.

(** A pointer to [int]: null, or a block of [int] cells. *)
Definition int_ptr : Type := option (list Z).

Definition malloc (e : env) (nbytes : Z) : int_ptr :=
  if nbytes <=? heap_limit e
  then Some (map (stale e) (seq 0 (Z.to_nat (nbytes / sizeof_int))))
  else None.

(** [p[idx] = v] *)
Definition store (p : int_ptr) (idx v : Z) : result int_ptr :=
  match p with
  | None => Fault NullDeref
  | Some cells =>
      if (0 <=? idx) && (idx <? Z.of_nat (length cells))
      then Ok (Some (<[Z.to_nat idx := v]> cells))
      else Fault OutOfBounds
  end.

(** [p[idx]] *)
Definition load (p : int_ptr) (idx : Z) : result Z :=
  match p with
  | None => Fault NullDeref
  | Some cells =>
      if 0 <=? idx
      then match cells !! Z.to_nat idx with
           | Some v => Ok v
           | None => Fault OutOfBounds
           end
      else Fault OutOfBounds
  end.

(** [a % b] on [long]: the remainder of the division truncated towards
    zero ([Z.rem]); undefined for [b = 0] and for [LONG_MIN % -1]. *)
Definition long_rem (a b : Z) : result Z :=
  if b =? 0 then Fault DivByZero
  else if (a =? long_min) && (b =? -1) then Fault DivByZero
  else Ok (Z.rem a b).

(** [atol], as glibc implements it ([strtol (s, NULL, 10)]): leading white
    space is skipped, an optional sign is read, then the longest run of
    decimal digits; a value outside [long] saturates. *)
Definition isspace (c : ascii) : bool :=
  let n := nat_of_ascii c in
  ((9 <=? n) && (n <=? 13))%nat || (n =? 32)%nat.

Definition digit_of (c : ascii) : option Z :=
  let n := Z.of_nat (nat_of_ascii c) in
  if (48 <=? n) && (n <=? 57) then Some (n - 48) else None.

Fixpoint skip_space (s : string) : string :=
  match s with
  | String c s' => if isspace c then skip_space s' else s
  | EmptyString => s
  end.

Fixpoint read_digits (acc : Z) (s : string) : Z :=
  match s with
  | String c s' =>
      match digit_of c with
      | Some d => read_digits (acc * 10 + d) s'
      | None => acc
      end
  | EmptyString => acc
  end.

Definition saturate (z : Z) : Z := Z.max long_min (Z.min long_max z).

Definition atol (s : string) : Z :=
  match skip_space s with
  | String "-" s' => saturate (- read_digits 0 s')
  | String "+" s' => saturate (read_digits 0 s')
  | s' => saturate (read_digits 0 s')
  end.

(** The line feed character, as a string. *)
Definition newline : string := String (ascii_of_nat 10) EmptyString.

(** The decimal numeral of [z]: no leading zeros, a [-] sign when
    negative. *)
Definition numeral (z : Z) : string := NilZero.string_of_int (Z.to_int z).

(** [printf("%d\n", v)]: the decimal numeral of [v], then a line feed. *)
Definition printf_d (v : Z) : string := (numeral v ++ newline)%string.

(** ** Loops *)

(** [for (long i = i0; i < bound; i++) body], run for at most [trips]
    iterations.  The counter never overflows: it is incremented only while
    [i < bound <= LONG_MAX]. *)
Fixpoint for_loop {St : Type} (trips : nat) (i bound : Z)
    (body : Z -> St -> result St) (st : St) : result St :=
  match trips with
  | O => Ok st
  | S trips' =>
      if i <? bound
      then st' ← body i st; for_loop trips' (i + 1) bound body st'
      else Ok st
  end.

(** [for (long i = 0; i < bound; i++) body]: the loop makes
    [max 0 bound] trips, see [for_loop_more_trips]. *)
Definition for_long {St : Type} (bound : Z)
    (body : Z -> St -> result St) (st : St) : result St :=
  for_loop (Z.to_nat bound) 0 bound body st.

(** ** main *)

(** [long N = argc>1 ? atol(argv[1]) : 1000000;]
    [long size = argc>2 ? atol(argv[2]) : 10000000;]
    [argv] holds the program name first, so [argc = length argv]. *)
Definition parse_args (argv : list string) : Z * Z :=
  let argc := Z.of_nat (length argv) in
  let N := if argc >? 1 then atol (nth 1 argv EmptyString) else 1000000 in
  let size := if argc >? 2 then atol (nth 2 argv EmptyString) else 10000000 in
  (N, size).

(** The objects the two loops work on. *)
Record locals : Type := Locals { A : int_ptr; sink : Z }.

(** [A[i]=i;] *)
Definition init_body (i : Z) (p : int_ptr) : result int_ptr :=
  store p i (to_int i).

(** [sink += A[i % size];] *)
Definition access_body (size : Z) (i : Z) (st : locals) : result locals :=
  idx ← long_rem i size;
  v ← load (A st) idx;
  Ok {| A := A st; sink := int_add (sink st) v |}.

(** [int *A = malloc(size * sizeof(int)); for(...) A[i]=i;] *)
Definition init_phase (e : env) (size : Z) : result int_ptr :=
  for_long size init_body (malloc e (size_mul size sizeof_int)).

(** [volatile int sink=0; for(long i=0;i<N;i++){ sink += A[i % size]; }] *)
Definition access_phase (N size : Z) (p : int_ptr) : result locals :=
  for_long N (access_body size) {| A := p; sink := 0 |}.

(** The state of [main] when it reaches [printf]. *)
Definition run_state (e : env) (N size : Z) : result locals :=
  p ← init_phase e size;
  access_phase N size p.

(** [printf("%d\n", sink); return 0;] *)
Definition run (e : env) (N size : Z) : result exit :=
  st ← run_state e N size;
  Ok (Exit 0 (printf_d (sink st))).

Definition main (e : env) (argv : list string) : result exit :=
  let '(N, size) := parse_args argv in
  run e N size.

(** ** Reference quantities *)

(** The allocation yields exactly [size] cells: the request was granted and
    the byte count [size * sizeof(int)] did not wrap. *)
Definition buffer_exists (e : env) (size : Z) : Prop :=
  length <$> malloc e (size_mul size sizeof_int) = Some (Z.to_nat size).

(** The Buffer after initialisation: cell [k] holds [(int) k]. *)
Definition index_buffer (size : Z) : list Z :=
  map (fun k => to_int (Z.of_nat k)) (seq 0 (Z.to_nat size)).

(** [f 0 + f 1 + ... + f (n - 1)], over the integers. *)
Fixpoint exact_sum (f : Z -> Z) (n : nat) : Z :=
  match n with
  | O => 0
  | S n' => exact_sum f n' + f (Z.of_nat n')
  end.

(** [Buffer[idx]] as a number (0 outside the Buffer). *)
Definition cell (buf : list Z) (idx : Z) : Z :=
  default 0 (buf !! Z.to_nat idx).

(** The accumulator after [i] trips over [buf], started from [sink0]. *)
Definition sink_after (size : Z) (buf : list Z) (sink0 i : Z) : Z :=
  if i =? 0 then sink0
  else to_int (sink0 + exact_sum (fun j => cell buf (j mod size)) (Z.to_nat i)).

(** [0 + 1 + ... + (k - 1)] in closed form. *)
Definition triangle (k : Z) : Z := k * (k - 1) / 2.

(** ** Example environments *)

(** A small heap with recognisable stale contents, and one that holds the
    default working set. *)
Definition small_env : env := Env 4096 (fun k => 1000 + Z.of_nat k).
Definition roomy_env : env := Env (2 ^ 32) (fun _ => -1).

(** ** Machine integers: facts *)

Section MachineFacts.

Lemma to_int_range z : int_min <= to_int z <= int_max.
Proof.
  unfold to_int, int_min, int_max, int_modulus.
  pose proof (Z.mod_pos_bound (z + 2 ^ 31) (2 ^ 32) ltac:(lia)). lia.
Qed.

Lemma to_int_small z : int_min <= z <= int_max -> to_int z = z.
Proof.
  unfold to_int, int_min, int_max, int_modulus. intros Hz.
  rewrite Z.mod_small by lia. lia.
Qed.

Lemma to_int_eqm a b : a mod int_modulus = b mod int_modulus -> to_int a = to_int b.
Proof.
  unfold to_int, int_modulus. intros Hab.
  rewrite <- (Zplus_mod_idemp_l a), <- (Zplus_mod_idemp_l b), Hab. reflexivity.
Qed.

Lemma to_int_mod z : to_int z mod int_modulus = z mod int_modulus.
Proof.
  unfold to_int, int_modulus.
  rewrite <- Zminus_mod_idemp_l, Z.mod_mod by lia.
  rewrite Zminus_mod_idemp_l. f_equal. lia.
Qed.

Lemma to_int_idemp z : to_int (to_int z) = to_int z.
Proof. apply to_int_eqm, to_int_mod. Qed.

Lemma int_add_to_int a b : int_add (to_int a) b = to_int (a + b).
Proof.
  unfold int_add. apply to_int_eqm.
  rewrite <- Zplus_mod_idemp_l, to_int_mod, Zplus_mod_idemp_l. reflexivity.
Qed.

Lemma to_int_add_r a b : to_int (a + to_int b) = to_int (a + b).
Proof.
  apply to_int_eqm.
  rewrite <- Zplus_mod_idemp_r, to_int_mod, Zplus_mod_idemp_r. reflexivity.
Qed.

Lemma size_mul_small size :
  0 <= size -> size * sizeof_int < size_modulus ->
  size_mul size sizeof_int = size * sizeof_int.
Proof.
  unfold size_mul, to_size_t, sizeof_int, size_modulus. intros H0 H1.
  rewrite (Z.mod_small size), (Z.mod_small 4), Z.mod_small; lia.
Qed.

End MachineFacts.

(** ** Allocation *)

Section Allocation.

Variable e : env.

Lemma malloc_cells nbytes cells :
  malloc e nbytes = Some cells ->
  nbytes <= heap_limit e /\ length cells = Z.to_nat (nbytes / sizeof_int).
Proof.
  unfold malloc. destruct (Z.leb_spec nbytes (heap_limit e)); [|discriminate].
  intros [= <-]. split; [assumption|].
  rewrite length_map, length_seq. reflexivity.
Qed.

(** A buffer of [size >= 0] cells exists exactly when the byte count
    neither wraps nor exceeds what the allocator grants. *)
Lemma buffer_exists_iff size :
  0 <= size ->
  buffer_exists e size <->
  size * sizeof_int <= heap_limit e /\ size * sizeof_int < size_modulus.
Proof.
  intros Hsz. unfold buffer_exists. split.
  - destruct (malloc e _) as [cells|] eqn:Hm; [|discriminate].
    apply malloc_cells in Hm as [Hlim Hlen]. cbn. intros [= Hc].
    rewrite Hlen in Hc. apply Z2Nat.inj in Hc; cycle 1.
    { apply Z.div_pos; [|unfold sizeof_int; lia].
      unfold size_mul, to_size_t, size_modulus. apply Z.mod_pos_bound. lia. }
    { assumption. }
    assert (Hb : 0 <= size_mul size sizeof_int < size_modulus).
    { unfold size_mul, to_size_t, size_modulus. apply Z.mod_pos_bound. lia. }
    assert (Hle : size_mul size sizeof_int <= size * sizeof_int).
    { unfold size_mul, to_size_t, sizeof_int, size_modulus in *.
      rewrite (Z.mod_small 4) by lia.
      etransitivity; [apply Z.mod_le; [|lia]|].
      - apply Z.mul_nonneg_nonneg; [apply Z.mod_pos_bound|]; lia.
      - apply Z.mul_le_mono_nonneg_r; [lia|]. apply Z.mod_le; lia. }
    unfold sizeof_int in *.
    pose proof (Z.mul_div_le (size_mul size 4) 4 ltac:(lia)).
    assert (size_mul size 4 = size * 4) by lia.
    lia.
  - intros [Hlim Hwrap]. unfold malloc.
    rewrite size_mul_small by assumption.
    destruct (Z.leb_spec (size * sizeof_int) (heap_limit e)); [|lia].
    cbn. rewrite length_map, length_seq. unfold sizeof_int.
    rewrite Z.div_mul by lia. reflexivity.
Qed.

Lemma buffer_exists_malloc size :
  buffer_exists e size ->
  exists cells, malloc e (size_mul size sizeof_int) = Some cells /\
                length cells = Z.to_nat size.
Proof.
  unfold buffer_exists. destruct (malloc e _) as [cells|]; [|discriminate].
  cbn. intros [= Hlen]. eauto.
Qed.

End Allocation.

(** ** Loops: trip count and invariants *)

Section LoopFacts.

Context {St : Type}.
Variable body : Z -> St -> result St.
Variable bound : Z.

(** With the condition false at entry the body is never run. *)
Lemma for_loop_exit trips i st :
  bound <= i -> for_loop trips i bound body st = Ok st.
Proof.
  intros Hi. destruct trips as [|trips]; [reflexivity|]. cbn.
  destruct (Z.ltb_spec i bound); [lia | reflexivity].
Qed.

(** The loop leaves through its condition: once [trips] covers the
    distance to [bound], allowing more trips changes nothing. *)
Lemma for_loop_more_trips trips extra i st :
  (Z.to_nat (bound - i) <= trips)%nat ->
  for_loop (trips + extra) i bound body st = for_loop trips i bound body st.
Proof.
  revert i st. induction trips as [|trips IH]; intros i st Hle.
  - rewrite !for_loop_exit by lia. reflexivity.
  - cbn. destruct (Z.ltb_spec i bound) as [Hlt|Hge]; [|reflexivity].
    destruct (body i st) as [st'|f]; cbn; [|reflexivity].
    apply IH. lia.
Qed.

(** Invariant rule: [Inv i] holds of the state when the counter is [i]. *)
Lemma for_loop_invariant (Inv : Z -> St -> Prop) trips i st :
  (forall j s, i <= j < bound -> Inv j s ->
     exists s', body j s = Ok s' /\ Inv (j + 1) s') ->
  i <= bound -> trips = Z.to_nat (bound - i) -> Inv i st ->
  exists st', for_loop trips i bound body st = Ok st' /\ Inv bound st'.
Proof.
  revert i st. induction trips as [|trips IH]; intros i st Hstep Hle Htrips Hinv.
  - assert (i = bound) as -> by lia. exists st. split; [reflexivity | assumption].
  - cbn. destruct (Z.ltb_spec i bound) as [Hlt|Hge]; [|lia].
    destruct (Hstep i st ltac:(lia) Hinv) as (s' & -> & Hinv'). cbn.
    apply IH; [|lia|lia|assumption].
    intros j s Hj. apply Hstep. lia.
Qed.

Lemma for_long_invariant (Inv : Z -> St -> Prop) st :
  (forall j s, 0 <= j < bound -> Inv j s ->
     exists s', body j s = Ok s' /\ Inv (j + 1) s') ->
  0 <= bound -> Inv 0 st ->
  exists st', for_long bound body st = Ok st' /\ Inv bound st'.
Proof.
  intros Hstep Hb Hinv. unfold for_long.
  apply for_loop_invariant; [assumption | assumption | f_equal; lia | assumption].
Qed.

Lemma for_long_no_trip st : bound <= 0 -> for_long bound body st = Ok st.
Proof. intros Hb. unfold for_long. apply for_loop_exit. assumption. Qed.

End LoopFacts.

(** ** The initialisation phase *)

Section InitPhase.

Lemma length_index_buffer size : length (index_buffer size) = Z.to_nat size.
Proof. unfold index_buffer. rewrite length_map, length_seq. reflexivity. Qed.

Lemma lookup_index_buffer size (k : nat) :
  (k < Z.to_nat size)%nat ->
  index_buffer size !! k = Some (to_int (Z.of_nat k)).
Proof.
  intros Hk. unfold index_buffer.
  rewrite list_lookup_fmap, lookup_seq_lt by assumption. reflexivity.
Qed.

Lemma cell_index_buffer size k :
  0 <= k < size -> cell (index_buffer size) k = to_int k.
Proof.
  intros Hk. unfold cell. rewrite lookup_index_buffer by lia.
  cbn. f_equal. lia.
Qed.

(** Filling a block of [size] cells leaves [index_buffer size], whatever
    the block held before. *)
Lemma init_loop_fills size (cells : list Z) :
  0 <= size -> length cells = Z.to_nat size ->
  for_long size init_body (Some cells) = Ok (Some (index_buffer size)).
Proof.
  intros Hsz Hlen.
  pose (Inv := fun (i : Z) (p : int_ptr) =>
    exists cs : list Z, p = Some cs /\ length cs = Z.to_nat size /\
      forall k : nat, Z.of_nat k < i -> cs !! k = Some (to_int (Z.of_nat k))).
  destruct (for_long_invariant init_body size Inv (Some cells)) as (p & Hrun & Hp).
  - intros j p Hj (cs & -> & Hcs & Hfilled).
    unfold init_body, store.
    destruct (Z.leb_spec 0 j); [|lia].
    destruct (Z.ltb_spec j (Z.of_nat (length cs))); [|lia]. cbn.
    eexists. split; [reflexivity|].
    exists (<[Z.to_nat j := to_int j]> cs). split; [reflexivity|].
    split; [rewrite length_insert; assumption|].
    intros k Hk. destruct (decide (k = Z.to_nat j)) as [->|Hne].
    + rewrite list_lookup_insert_eq by lia. do 2 f_equal. lia.
    + rewrite list_lookup_insert_ne by congruence. apply Hfilled. lia.
  - assumption.
  - exists cells. split; [reflexivity|]. split; [assumption|]. intros k Hk. lia.
  - rewrite Hrun. destruct Hp as (cs & -> & Hcs & Hfilled). do 2 f_equal.
    apply list_eq. intros k.
    destruct (decide (k < Z.to_nat size)%nat) as [Hk|Hk].
    + rewrite lookup_index_buffer by assumption. apply Hfilled. lia.
    + rewrite !lookup_ge_None_2; [reflexivity | |];
        rewrite ?length_index_buffer; lia.
Qed.

Lemma init_phase_fills e size :
  0 <= size -> buffer_exists e size ->
  init_phase e size = Ok (Some (index_buffer size)).
Proof.
  intros Hsz Hbuf. unfold init_phase.
  destruct (buffer_exists_malloc e size Hbuf) as (cells & -> & Hlen).
  apply init_loop_fills; assumption.
Qed.

(** A non-positive [size]: the loop makes no trip and [A] is whatever
    [malloc] returned. *)
Lemma init_phase_no_trip e size :
  size <= 0 -> init_phase e size = Ok (malloc e (size_mul size sizeof_int)).
Proof. intros Hsz. unfold init_phase. apply for_long_no_trip. assumption. Qed.

End InitPhase.

(** ** The access phase *)

(** On a non-negative counter [%] is the mathematical [mod]. *)
Lemma long_rem_nonneg i size :
  1 <= size -> 0 <= i -> long_rem i size = Ok (i mod size).
Proof.
  intros Hsz Hi. unfold long_rem.
  destruct (Z.eqb_spec size 0); [lia|].
  destruct (Z.eqb_spec i long_min) as [Hm|_]; [unfold long_min in Hm; lia|].
  cbn. rewrite Z.rem_mod_nonneg by lia. reflexivity.
Qed.

Section AccessPhase.

Variable size : Z.
Variable buf : list Z.
Hypothesis size_pos : 1 <= size.
Hypothesis buf_len : length buf = Z.to_nat size.

(** One iteration: the index is in range, the read succeeds, and only
    [sink] changes. *)
Lemma access_body_ok i st :
  0 <= i -> A st = Some buf ->
  access_body size i st =
    Ok {| A := Some buf; sink := int_add (sink st) (cell buf (i mod size)) |}.
Proof.
  intros Hi HA. unfold access_body.
  rewrite long_rem_nonneg by assumption. cbn.
  pose proof (Z.mod_pos_bound i size ltac:(lia)) as Hidx.
  rewrite HA. unfold load, cell.
  destruct (Z.leb_spec 0 (i mod size)); [|lia].
  destruct (lookup_lt_is_Some_2 buf (Z.to_nat (i mod size)) ltac:(lia)) as [v ->].
  reflexivity.
Qed.

Lemma sink_after_step sink0 i :
  0 <= i ->
  int_add (sink_after size buf sink0 i) (cell buf (i mod size))
  = sink_after size buf sink0 (i + 1).
Proof.
  intros Hi. unfold sink_after.
  destruct (Z.eqb_spec (i + 1) 0); [lia|].
  replace (Z.to_nat (i + 1)) with (S (Z.to_nat i)) by lia. cbn [exact_sum].
  rewrite Z2Nat.id by assumption.
  destruct (Z.eqb_spec i 0) as [->|_].
  - cbn [Z.to_nat exact_sum]. unfold int_add. f_equal; lia.
  - rewrite int_add_to_int. f_equal; lia.
Qed.

Lemma access_loop_run N st :
  0 <= N -> A st = Some buf ->
  for_long N (access_body size) st =
    Ok {| A := Some buf; sink := sink_after size buf (sink st) N |}.
Proof.
  intros HN HA.
  pose (Inv := fun (i : Z) (s : locals) =>
    s = {| A := Some buf; sink := sink_after size buf (sink st) i |}).
  destruct (for_long_invariant (access_body size) N Inv st) as (st' & -> & ->).
  - intros j s Hj ->. eexists. split; [|reflexivity].
    rewrite access_body_ok by (cbn; solve [lia | reflexivity]).
    cbn [sink]. rewrite sink_after_step by lia. reflexivity.
  - assumption.
  - unfold Inv, sink_after. cbn. destruct st as [p s]. cbn in *. congruence.
  - reflexivity.
Qed.

Lemma access_phase_run N :
  0 <= N ->
  access_phase N size (Some buf) =
    Ok {| A := Some buf;
          sink := to_int (exact_sum (fun j => cell buf (j mod size)) (Z.to_nat N)) |}.
Proof.
  intros HN. unfold access_phase. rewrite access_loop_run by (cbn; solve [lia | reflexivity]).
  cbn [sink]. unfold sink_after. destruct (Z.eqb_spec N 0) as [->|_]; reflexivity.
Qed.

End AccessPhase.

(** ** Sums *)

Section Sums.

Lemma exact_sum_ext f g n :
  (forall i, 0 <= i < Z.of_nat n -> f i = g i) -> exact_sum f n = exact_sum g n.
Proof.
  induction n as [|n IH]; intros Hfg; [reflexivity|]. cbn [exact_sum].
  rewrite IH, Hfg by (intros; try apply Hfg; lia). reflexivity.
Qed.

(** Reducing every term to an [int] does not change the reduced sum. *)
Lemma to_int_exact_sum f n :
  to_int (exact_sum (fun i => to_int (f i)) n) = to_int (exact_sum f n).
Proof.
  induction n as [|n IH]; [reflexivity|]. cbn [exact_sum].
  rewrite to_int_add_r, Z.add_comm, <- to_int_add_r, IH, to_int_add_r.
  f_equal. lia.
Qed.

Lemma triangle_succ k : 0 <= k -> triangle (k + 1) = triangle k + k.
Proof.
  intros Hk. unfold triangle.
  replace ((k + 1) * (k + 1 - 1)) with (k * (k - 1) + k * 2) by lia.
  apply Z.div_add. lia.
Qed.

(** No wraparound: [0 + 1 + ... + (n - 1)]. *)
Lemma exact_sum_id n : exact_sum (fun i => i) n = triangle (Z.of_nat n).
Proof.
  induction n as [|n IH]; [reflexivity|]. cbn [exact_sum].
  rewrite Nat2Z.inj_succ, <- Z.add_1_r, triangle_succ, IH by lia. reflexivity.
Qed.

(** With wraparound: full cycles of [triangle size] each, then a partial
    cycle. *)
Lemma exact_sum_mod size n :
  1 <= size ->
  exact_sum (fun i => i mod size) n =
    Z.of_nat n / size * triangle size + triangle (Z.of_nat n mod size).
Proof.
  intros Hsz. induction n as [|n IH]; [reflexivity|]. cbn [exact_sum].
  rewrite IH, Nat2Z.inj_succ, <- Z.add_1_r.
  set (m := Z.of_nat n).
  pose proof (Z.mod_pos_bound m size ltac:(lia)) as Hr.
  pose proof (Z.div_mod m size ltac:(lia)) as Hdm.
  destruct (Z.eq_dec (m mod size + 1) size) as [Hwrap|Hin].
  - assert (Hq : (m + 1) / size = m / size + 1).
    { symmetry. apply (Z.div_unique _ _ _ 0); lia. }
    assert (Hm : (m + 1) mod size = 0).
    { symmetry. apply (Z.mod_unique _ _ (m / size + 1)); lia. }
    assert (Hfull : triangle size = triangle (m mod size) + m mod size).
    { rewrite <- Hwrap at 1. apply triangle_succ. lia. }
    rewrite Hq, Hm. change (triangle 0) with 0. lia.
  - assert (Hq : (m + 1) / size = m / size).
    { symmetry. apply (Z.div_unique _ _ _ (m mod size + 1)); lia. }
    assert (Hm : (m + 1) mod size = m mod size + 1).
    { symmetry. apply (Z.mod_unique _ _ (m / size)); lia. }
    rewrite Hq, Hm, triangle_succ by lia. lia.
Qed.

End Sums.

(** ** Reading numerals *)

Section Numerals.

Lemma read_digits_cons c k acc s :
  digit_of c = Some k ->
  read_digits acc (String c s) = read_digits (acc * 10 + k) s.
Proof. intros Hc. cbn [read_digits]. rewrite Hc. reflexivity. Qed.

Lemma read_digits_acc d acc :
  read_digits (Z.pos acc) (NilEmpty.string_of_uint d) = Z.pos (Pos.of_uint_acc d acc).
Proof.
  revert acc. induction d as [|d IH|d IH|d IH|d IH|d IH|d IH|d IH|d IH|d IH|d IH];
    intros acc; [reflexivity|..];
    cbn [NilEmpty.string_of_uint Pos.of_uint_acc];
    erewrite read_digits_cons by (vm_compute; reflexivity);
    rewrite <- IH; f_equal; lia.
Qed.

Lemma read_digits_uint d :
  read_digits 0 (NilEmpty.string_of_uint d) = Z.of_N (Pos.of_uint d).
Proof.
  induction d as [|d IH|d IH|d IH|d IH|d IH|d IH|d IH|d IH|d IH|d IH];
    [reflexivity | exact IH |..];
    cbn [NilEmpty.string_of_uint Pos.of_uint Z.of_N];
    erewrite read_digits_cons by (vm_compute; reflexivity);
    rewrite <- read_digits_acc; reflexivity.
Qed.

Lemma to_uint_not_nil p : Pos.to_uint p <> Decimal.Nil.
Proof.
  intros Hnil. pose proof (Unsigned.of_to p) as Hp.
  rewrite Hnil in Hp. discriminate.
Qed.

Lemma read_numeral_pos p :
  read_digits 0 (NilZero.string_of_uint (Pos.to_uint p)) = Z.pos p.
Proof.
  pose proof (to_uint_not_nil p) as Hnil.
  replace (NilZero.string_of_uint (Pos.to_uint p))
    with (NilEmpty.string_of_uint (Pos.to_uint p))
    by (destruct (Pos.to_uint p); [contradiction | reflexivity..]).
  rewrite read_digits_uint, Unsigned.of_to. reflexivity.
Qed.

Lemma atol_unsigned d :
  atol (NilZero.string_of_uint d) = saturate (read_digits 0 (NilZero.string_of_uint d)).
Proof. destruct d; reflexivity. Qed.

Lemma saturate_in_range z : long_min <= z <= long_max -> saturate z = z.
Proof. unfold saturate. lia. Qed.

Lemma atol_range s : long_min <= atol s <= long_max.
Proof.
  assert (Hsat : forall z, long_min <= saturate z <= long_max).
  { intros z. unfold saturate, long_min, long_max. lia. }
  unfold atol. destruct (skip_space s) as [|c s']; [apply Hsat|].
  destruct c as [[] [] [] [] [] [] [] []]; apply Hsat.
Qed.

(** [atol] reads back the numeral of every [long]. *)
Lemma atol_numeral z : long_min <= z <= long_max -> atol (numeral z) = z.
Proof.
  intros Hz. unfold numeral. destruct z as [|p|p]; cbn [Z.to_int NilZero.string_of_int].
  - reflexivity.
  - rewrite atol_unsigned, read_numeral_pos. apply saturate_in_range. assumption.
  - change (atol (String "-" (NilZero.string_of_uint (Pos.to_uint p))))
      with (saturate (- read_digits 0 (NilZero.string_of_uint (Pos.to_uint p)))).
    rewrite read_numeral_pos. apply saturate_in_range. assumption.
Qed.

End Numerals.

(** ** The whole program *)

Section Program.

Variable e : env.

(** With the Buffer allocated, [main] reaches [printf] with the Buffer
    filled and the accumulator holding the reduced sum of the reads. *)
Lemma run_state_reads N size :
  1 <= size -> 0 <= N -> buffer_exists e size ->
  run_state e N size =
    Ok {| A := Some (index_buffer size);
          sink := to_int (exact_sum (fun j => cell (index_buffer size) (j mod size))
                                    (Z.to_nat N)) |}.
Proof.
  intros Hsz HN Hbuf. unfold run_state.
  rewrite init_phase_fills by (assumption || lia). cbn.
  apply access_phase_run; [assumption | apply length_index_buffer | assumption].
Qed.

Lemma reads_reduce size n :
  1 <= size ->
  to_int (exact_sum (fun j => cell (index_buffer size) (j mod size)) n) =
  to_int (exact_sum (fun j => j mod size) n).
Proof.
  intros Hsz. rewrite <- (to_int_exact_sum (fun j => j mod size)). f_equal.
  apply exact_sum_ext. intros i Hi. apply cell_index_buffer.
  apply Z.mod_pos_bound. lia.
Qed.

Lemma run_reads N size :
  1 <= size -> 0 <= N -> buffer_exists e size ->
  run e N size =
    Ok (Exit 0 (printf_d (to_int (exact_sum (fun j => j mod size) (Z.to_nat N))))).
Proof.
  intros Hsz HN Hbuf. unfold run. rewrite run_state_reads by assumption. cbn.
  rewrite reads_reduce by assumption. reflexivity.
Qed.

Lemma run_closed_form N size :
  1 <= size -> 0 <= N -> buffer_exists e size ->
  run e N size =
    Ok (Exit 0 (printf_d (to_int (N / size * triangle size + triangle (N mod size))))).
Proof.
  intros Hsz HN Hbuf. rewrite run_reads by assumption.
  rewrite exact_sum_mod, Z2Nat.id by assumption. reflexivity.
Qed.

(** With [N <= 0] the access loop makes no trip. *)
Lemma run_state_no_access N size p :
  N <= 0 -> init_phase e size = Ok p ->
  run_state e N size = Ok {| A := p; sink := 0 |}.
Proof.
  intros HN Hinit. unfold run_state. rewrite Hinit. cbn.
  unfold access_phase. apply for_long_no_trip. assumption.
Qed.

Lemma init_phase_completes size :
  size <= 0 \/ buffer_exists e size -> exists p, init_phase e size = Ok p.
Proof.
  intros [Hsz|Hbuf].
  - eexists. apply init_phase_no_trip. assumption.
  - destruct (Z.le_gt_cases size 0) as [Hsz|Hsz].
    + eexists. apply init_phase_no_trip. assumption.
    + eexists. apply init_phase_fills; [lia | assumption].
Qed.

End Program.

Lemma triangle_nonneg k : 0 <= k -> 0 <= triangle k.
Proof. intros Hk. unfold triangle. apply Z.div_pos; nia. Qed.

(** ** Sample runs *)

Example run_7_3 : main small_env ["micro_load"; "7"; "3"]%string
                  = Ok (Exit 0 ("6" ++ newline)%string).
Proof. reflexivity. Qed.

Example run_size_zero : main small_env ["micro_load"; "5"; "0"]%string = Fault DivByZero.
Proof. reflexivity. Qed.

Example run_alloc_refused : main small_env ["micro_load"; "5"; "2000"]%string = Fault NullDeref.
Proof. reflexivity. Qed.

(** ** Properties of the printed result *)

(** C1 (as amended).  For [1 <= N <= S], with the Buffer allocated, the
    program prints [N*(N-1)/2] reduced to a 32-bit signed [int]; it prints
    exactly [N*(N-1)/2] when that value does not exceed [INT_MAX]. *)
Theorem sum_without_wraparound e N S :
  1 <= N <= S -> buffer_exists e S ->
  run e N S = Ok (Exit 0 (printf_d (to_int (N * (N - 1) / 2)))) /\
  (N * (N - 1) / 2 <= int_max ->
   run e N S = Ok (Exit 0 (printf_d (N * (N - 1) / 2)))).
Proof.
  intros HN Hbuf.
  assert (Hrun : run e N S = Ok (Exit 0 (printf_d (to_int (triangle N))))).
  { rewrite run_closed_form by (assumption || lia).
    assert (Hsum : N / S * triangle S + triangle (N mod S) = triangle N).
    { destruct (Z.eq_dec N S) as [->|Hne].
      - rewrite Z.div_same, Z.mod_same by lia. change (triangle 0) with 0. lia.
      - rewrite Z.div_small, Z.mod_small by lia. lia. }
    rewrite Hsum. reflexivity. }
  split; [exact Hrun|]. intros Hfit. rewrite Hrun.
  fold (triangle N) in Hfit |- *. rewrite to_int_small; [reflexivity|].
  pose proof (triangle_nonneg N ltac:(lia)). unfold int_min. lia.
Qed.

Lemma sum_without_wraparound_witness :
  (1 <= 3 <= 5 /\ buffer_exists small_env 5) /\
  run small_env 3 5 = Ok (Exit 0 (printf_d 3)).
Proof.
  split; [split; [lia | reflexivity]|].
  apply (sum_without_wraparound small_env 3 5); [lia | reflexivity | vm_compute; discriminate].
Defined.

(** C1, as stated, fails on the default invocation: [N = 1000000],
    [S = 10000000] prints 1783293664, not 499999500000. *)
Lemma default_run_wraps :
  1 <= 1000000 <= 10000000 /\
  buffer_exists roomy_env 10000000 /\
  main roomy_env ["micro_load"]%string = run roomy_env 1000000 10000000 /\
  run roomy_env 1000000 10000000 = Ok (Exit 0 ("1783293664" ++ newline)%string) /\
  printf_d (1000000 * (1000000 - 1) / 2) = ("499999500000" ++ newline)%string /\
  run roomy_env 1000000 10000000
    <> Ok (Exit 0 (printf_d (1000000 * (1000000 - 1) / 2))).
Proof.
  assert (Hbuf : buffer_exists roomy_env 10000000).
  { apply buffer_exists_iff; [lia|]. vm_compute. split; [discriminate | reflexivity]. }
  assert (Hrun : run roomy_env 1000000 10000000
                 = Ok (Exit 0 ("1783293664" ++ newline)%string)).
  { rewrite run_closed_form by (assumption || lia). vm_compute. reflexivity. }
  split; [lia|]. split; [exact Hbuf|]. split; [reflexivity|].
  split; [exact Hrun|]. split; [vm_compute; reflexivity|].
  rewrite Hrun. vm_compute. discriminate.
Qed.

(** C2 (as amended).  For [S >= 1] and [N > S], with the Buffer allocated,
    the program prints [floor(N/S) * (S*(S-1)/2) + (0 + 1 + ... + (N mod S - 1))]
    reduced to a 32-bit signed [int]; it prints exactly that value when the
    value does not exceed [INT_MAX]. *)
Theorem sum_with_wraparound e N S :
  1 <= S -> S < N -> buffer_exists e S ->
  let total := N / S * (S * (S - 1) / 2)
               + exact_sum (fun i => i) (Z.to_nat (N mod S)) in
  run e N S = Ok (Exit 0 (printf_d (to_int total))) /\
  (total <= int_max -> run e N S = Ok (Exit 0 (printf_d total))).
Proof.
  intros HS HN Hbuf total.
  pose proof (Z.mod_pos_bound N S ltac:(lia)) as Hr.
  assert (Htotal : total = N / S * triangle S + triangle (N mod S)).
  { unfold total. rewrite exact_sum_id, Z2Nat.id by lia. reflexivity. }
  assert (Hrun : run e N S = Ok (Exit 0 (printf_d (to_int total)))).
  { rewrite Htotal. apply run_closed_form; assumption || lia. }
  split; [exact Hrun|]. intros Hfit. rewrite Hrun.
  rewrite to_int_small; [reflexivity|].
  split; [|assumption]. rewrite Htotal.
  pose proof (triangle_nonneg S ltac:(lia)).
  pose proof (triangle_nonneg (N mod S) ltac:(lia)).
  pose proof (Z.div_pos N S ltac:(lia) ltac:(lia)).
  unfold int_min. nia.
Qed.

Lemma sum_with_wraparound_witness :
  (1 <= 3 /\ 3 < 7 /\ buffer_exists small_env 3) /\
  run small_env 7 3 = Ok (Exit 0 (printf_d 6)).
Proof.
  split; [split; [lia | split; [lia | reflexivity]]|].
  apply (sum_with_wraparound small_env 7 3); [lia | lia | reflexivity | vm_compute; discriminate].
Defined.

(** C2, as stated, fails at [N = 131072], [S = 65536]: two full cycles sum
    to 4294901760, and the program prints -65536. *)
Lemma two_cycles_wrap :
  1 <= 65536 /\ 65536 < 131072 /\
  buffer_exists roomy_env 65536 /\
  run roomy_env 131072 65536 = Ok (Exit 0 ("-65536" ++ newline)%string) /\
  131072 / 65536 * (65536 * (65536 - 1) / 2)
    + exact_sum (fun i => i) (Z.to_nat (131072 mod 65536)) = 4294901760 /\
  run roomy_env 131072 65536
    <> Ok (Exit 0 (printf_d (131072 / 65536 * (65536 * (65536 - 1) / 2)
                             + exact_sum (fun i => i) (Z.to_nat (131072 mod 65536))))).
Proof.
  assert (Hbuf : buffer_exists roomy_env 65536).
  { apply buffer_exists_iff; [lia|]. vm_compute. split; [discriminate | reflexivity]. }
  assert (Hrun : run roomy_env 131072 65536
                 = Ok (Exit 0 ("-65536" ++ newline)%string)).
  { rewrite run_closed_form by (assumption || lia). vm_compute. reflexivity. }
  split; [lia|]. split; [lia|]. split; [exact Hbuf|].
  split; [exact Hrun|]. split; [vm_compute; reflexivity|].
  rewrite Hrun. vm_compute. discriminate.
Qed.

(** C3.  For [S >= 1] and [N >= 0], any two runs with the same [(N, S)] in
    which the Buffer is allocated print the same value, whatever the
    allocator left in the fresh memory and whatever its limits. *)
Theorem run_deterministic e1 e2 N S :
  1 <= S -> 0 <= N -> buffer_exists e1 S -> buffer_exists e2 S ->
  run e1 N S = run e2 N S /\ exists out, run e1 N S = Ok (Exit 0 out).
Proof.
  intros HS HN Hbuf1 Hbuf2.
  rewrite !run_reads by assumption. split; [reflexivity | eauto].
Qed.

Lemma run_deterministic_witness :
  (1 <= 3 /\ 0 <= 7 /\ buffer_exists small_env 3 /\ buffer_exists roomy_env 3) /\
  run small_env 7 3 = run roomy_env 7 3.
Proof.
  split; [repeat split; solve [lia | reflexivity]|].
  apply (run_deterministic small_env roomy_env 7 3); solve [lia | reflexivity].
Defined.

(** C4.  For [N = 0] and every [S >= 1] (Buffer allocated) the output is 0:
    the access loop performs no read and leaves the accumulator at its
    initial value 0. *)
Theorem zero_accesses e S :
  1 <= S -> buffer_exists e S ->
  run e 0 S = Ok (Exit 0 ("0" ++ newline)%string) /\
  forall p, access_phase 0 S p = Ok {| A := p; sink := 0 |}.
Proof.
  intros HS Hbuf. split.
  - rewrite run_reads by (assumption || lia). reflexivity.
  - intros p. unfold access_phase. apply for_long_no_trip. lia.
Qed.

Lemma zero_accesses_witness :
  (1 <= 5 /\ buffer_exists small_env 5) /\
  run small_env 0 5 = Ok (Exit 0 ("0" ++ newline)%string).
Proof.
  split; [split; [lia | reflexivity]|].
  apply (zero_accesses small_env 5); [lia | reflexivity].
Defined.

(** C5.  For [S = 1] and every [N >= 0] (Buffer allocated) the output is 0:
    every access has index 0, and [Buffer[0]] was initialised to 0. *)
Theorem single_cell e N :
  0 <= N -> buffer_exists e 1 ->
  run e N 1 = Ok (Exit 0 ("0" ++ newline)%string) /\
  init_phase e 1 = Ok (Some [0]) /\
  forall i, 0 <= i -> long_rem i 1 = Ok 0.
Proof.
  intros HN Hbuf. split; [|split].
  - rewrite run_closed_form by (assumption || lia).
    rewrite Z.mod_1_r, Z.div_1_r. change (triangle 1) with 0.
    change (triangle 0) with 0. rewrite Z.mul_0_r. reflexivity.
  - rewrite init_phase_fills by (assumption || lia). reflexivity.
  - intros i Hi. rewrite long_rem_nonneg, Z.mod_1_r by lia. reflexivity.
Qed.

Lemma single_cell_witness :
  (0 <= 9 /\ buffer_exists small_env 1) /\
  run small_env 9 1 = Ok (Exit 0 ("0" ++ newline)%string).
Proof.
  split; [split; [lia | reflexivity]|].
  apply (single_cell small_env 9); [lia | reflexivity].
Defined.

(** ** Argument handling *)

Lemma parse_args_none prog : parse_args [prog] = (1000000, 10000000).
Proof. reflexivity. Qed.

Lemma parse_args_one prog a1 : parse_args [prog; a1] = (atol a1, 10000000).
Proof. reflexivity. Qed.

Lemma parse_args_two prog a1 a2 : parse_args [prog; a1; a2] = (atol a1, atol a2).
Proof. reflexivity. Qed.

Lemma parse_args_count argv :
  (1 < length argv)%nat -> fst (parse_args argv) = atol (nth 1 argv EmptyString).
Proof.
  intros Hargc. unfold parse_args.
  destruct (Z.gtb_spec (Z.of_nat (length argv)) 1); [reflexivity | lia].
Qed.

(** C6.  Without arguments the program runs with [N = 1000000] and
    [S = 10000000]; with one numeric argument that number is [N] and [S]
    keeps its default; with two, the first is [N] and the second is [S]. *)
Theorem argument_handling e prog n s :
  long_min <= n <= long_max -> long_min <= s <= long_max ->
  main e [prog] = run e 1000000 10000000 /\
  main e [prog; numeral n] = run e n 10000000 /\
  main e [prog; numeral n; numeral s] = run e n s.
Proof.
  intros Hn Hs. unfold main.
  rewrite parse_args_none, parse_args_one, parse_args_two.
  rewrite !atol_numeral by assumption. repeat split.
Qed.

Lemma argument_handling_witness :
  (long_min <= 7 <= long_max /\ long_min <= 3 <= long_max) /\
  main small_env ["micro_load"; "7"; "3"]%string = run small_env 7 3.
Proof.
  split; [unfold long_min, long_max; lia|].
  apply (argument_handling small_env "micro_load"%string 7 3);
    unfold long_min, long_max; lia.
Defined.

(** ** Memory safety and the frame of the access loop *)

(** C7.  For [S >= 1] and [i >= 0] the index [i % S] is [i mod S] and lies
    in [[0, S)]; on a Buffer of [S] cells the read at that index succeeds
    and the access loop runs to completion for every [N]. *)
Theorem reads_in_bounds S i :
  1 <= S -> 0 <= i ->
  long_rem i S = Ok (i mod S) /\ 0 <= i mod S < S /\
  forall buf : list Z, length buf = Z.to_nat S ->
    (exists v, load (Some buf) (i mod S) = Ok v) /\
    (forall N st, A st = Some buf ->
       exists st', for_long N (access_body S) st = Ok st').
Proof.
  intros HS Hi.
  pose proof (Z.mod_pos_bound i S ltac:(lia)) as Hidx.
  split; [|split; [exact Hidx|]].
  - apply long_rem_nonneg; assumption.
  - intros buf Hlen. split.
    + unfold load. destruct (Z.leb_spec 0 (i mod S)); [|lia].
      destruct (lookup_lt_is_Some_2 buf (Z.to_nat (i mod S)) ltac:(lia)) as [v ->].
      eauto.
    + intros N st HA. destruct (Z.le_gt_cases 0 N) as [HN|HN].
      * eexists. apply (access_loop_run S buf); assumption.
      * eexists. apply for_long_no_trip. lia.
Qed.

Lemma reads_in_bounds_witness :
  (1 <= 3 /\ 0 <= 7) /\ long_rem 7 3 = Ok 1.
Proof.
  split; [lia|]. apply (reads_in_bounds 3 7); lia.
Defined.

(** C8.  Once initialisation has established [Buffer[k] = k] for every [k]
    in [[0, S)], no iteration of the access loop changes [A] or its cells:
    only [sink] is written, and at [printf] the Buffer still holds
    [Buffer[k] = k]. *)
Theorem buffer_unchanged e N S buf :
  1 <= S -> buffer_exists e S ->
  init_phase e S = Ok (Some buf) ->
  (forall k, 0 <= k < S -> load (Some buf) k = Ok k) ->
  (forall i st st', access_body S i st = Ok st' -> A st' = A st) /\
  exists st, run_state e N S = Ok st /\ A st = Some buf /\
             forall k, 0 <= k < S -> load (A st) k = Ok k.
Proof.
  intros HS Hbuf Hinit Hfilled. split.
  - intros i st st'. unfold access_body.
    destruct (long_rem i S) as [idx|f]; cbn; [|discriminate].
    destruct (load (A st) idx) as [v|f]; cbn; [|discriminate].
    intros [= <-]. reflexivity.
  - assert (Hst : exists st, run_state e N S = Ok st /\ A st = Some buf).
    { destruct (Z.le_gt_cases 0 N) as [HN|HN].
      - rewrite init_phase_fills in Hinit by (assumption || lia).
        injection Hinit as <-.
        rewrite run_state_reads by assumption. eexists. split; reflexivity.
      - rewrite (run_state_no_access e N S (Some buf)) by (assumption || lia).
        eexists. split; reflexivity. }
    destruct Hst as (st & Hrun & HA). exists st.
    split; [assumption|]. split; [assumption|]. rewrite HA. exact Hfilled.
Qed.

Lemma buffer_unchanged_witness :
  (1 <= 3 /\ buffer_exists small_env 3 /\
   init_phase small_env 3 = Ok (Some [0; 1; 2]) /\
   (forall k, 0 <= k < 3 -> load (Some [0; 1; 2]) k = Ok k)) /\
  exists st, run_state small_env 7 3 = Ok st /\ A st = Some [0; 1; 2] /\
             forall k, 0 <= k < 3 -> load (A st) k = Ok k.
Proof.
  assert (Hcells : forall k, 0 <= k < 3 -> load (Some [0; 1; 2]) k = Ok k).
  { intros k Hk. assert (k = 0 \/ k = 1 \/ k = 2) as [->|[->| ->]] by lia; reflexivity. }
  split; [repeat split; solve [lia | reflexivity | exact Hcells]|].
  apply (buffer_unchanged small_env 7 3 [0; 1; 2]);
    solve [lia | reflexivity | exact Hcells].
Defined.

(** The initialisation establishes [Buffer[k] = (int) k], which is [k] for
    every index up to [INT_MAX]. *)
Lemma init_establishes e S k :
  1 <= S -> buffer_exists e S -> 0 <= k < S -> k <= int_max ->
  exists buf, init_phase e S = Ok (Some buf) /\ load (Some buf) k = Ok k.
Proof.
  intros HS Hbuf Hk Hfit. exists (index_buffer S).
  split; [apply init_phase_fills; assumption || lia|].
  unfold load. destruct (Z.leb_spec 0 k); [|lia].
  rewrite lookup_index_buffer by lia. rewrite Z2Nat.id by lia.
  rewrite to_int_small; [reflexivity | unfold int_min; lia].
Qed.

(** C9.  For [N >= 0] and [S >= 1] (Buffer allocated) the printed value is
    the 32-bit signed [int] congruent modulo [2^32] to the exact sum of
    [Buffer[i mod S]] over [i] in [[0, N)]. *)
Theorem accumulator_wraps e N S :
  0 <= N -> 1 <= S -> buffer_exists e S ->
  exists buf v,
    init_phase e S = Ok (Some buf) /\
    run_state e N S = Ok {| A := Some buf; sink := v |} /\
    run e N S = Ok (Exit 0 (printf_d v)) /\
    int_min <= v <= int_max /\
    v mod 2 ^ 32 = exact_sum (fun i => cell buf (i mod S)) (Z.to_nat N) mod 2 ^ 32.
Proof.
  intros HN HS Hbuf.
  exists (index_buffer S). eexists.
  split; [apply init_phase_fills; assumption || lia|].
  split; [apply run_state_reads; assumption|].
  split; [unfold run; rewrite run_state_reads by assumption; reflexivity|].
  split; [apply to_int_range | apply to_int_mod].
Qed.

Lemma accumulator_wraps_witness :
  (0 <= 7 /\ 1 <= 3 /\ buffer_exists small_env 3) /\
  exists buf v,
    init_phase small_env 3 = Ok (Some buf) /\
    run_state small_env 7 3 = Ok {| A := Some buf; sink := v |} /\
    run small_env 7 3 = Ok (Exit 0 (printf_d v)) /\
    int_min <= v <= int_max /\
    v mod 2 ^ 32 = exact_sum (fun i => cell buf (i mod 3)) (Z.to_nat 7) mod 2 ^ 32.
Proof.
  split; [repeat split; solve [lia | reflexivity]|].
  apply (accumulator_wraps small_env 7 3); solve [lia | reflexivity].
Defined.

(** C10.  When the first argument parses to [N < 0] the access loop makes
    no trip, and (the initialisation having completed) the program prints
    0 and a newline and exits with status 0. *)
Theorem negative_count e argv :
  (1 < length argv)%nat ->
  atol (nth 1 argv EmptyString) < 0 ->
  snd (parse_args argv) <= 0 \/ buffer_exists e (snd (parse_args argv)) ->
  main e argv = Ok (Exit 0 ("0" ++ newline)%string) /\
  forall p, access_phase (fst (parse_args argv)) (snd (parse_args argv)) p
            = Ok {| A := p; sink := 0 |}.
Proof.
  intros Hargc Hneg Hinit.
  pose proof (parse_args_count argv Hargc) as HN.
  unfold main. destruct (parse_args argv) as [N size]. cbn [fst snd] in *.
  rewrite <- HN in Hneg. split.
  - destruct (init_phase_completes e size Hinit) as [p Hp].
    unfold run. rewrite (run_state_no_access e N size p) by (assumption || lia).
    reflexivity.
  - intros p. unfold access_phase. apply for_long_no_trip. lia.
Qed.

Lemma negative_count_witness :
  ((1 < length ["micro_load"; "-5"; "3"]%string)%nat /\
   atol (nth 1 ["micro_load"; "-5"; "3"]%string EmptyString) < 0 /\
   buffer_exists small_env (snd (parse_args ["micro_load"; "-5"; "3"]%string))) /\
  main small_env ["micro_load"; "-5"; "3"]%string = Ok (Exit 0 ("0" ++ newline)%string).
Proof.
  split; [repeat split; solve [cbn; lia | reflexivity]|].
  apply (negative_count small_env ["micro_load"; "-5"; "3"]%string);
    [cbn; lia | reflexivity | right; reflexivity].
Defined.

(** * Further properties of [main]: faults, edge cases, composition *)

(** ** Loops that stop early or are only known to have returned *)

Section LoopOutcomes.

Context {St : Type}.
Variable body : Z -> St -> result St.
Variable bound : Z.

(** The loop ends with the fault of the first trip whose body faults. *)
Lemma for_loop_faults_at (Inv : Z -> St -> Prop) c f trips i st :
  (forall j s, i <= j < c -> Inv j s ->
     exists s', body j s = Ok s' /\ Inv (j + 1) s') ->
  (forall s, Inv c s -> body c s = Fault f) ->
  i <= c < bound -> trips = Z.to_nat (bound - i) -> Inv i st ->
  for_loop trips i bound body st = Fault f.
Proof.
  revert i st. induction trips as [|trips IH]; intros i st Hstep Hfault Hc Htrips Hinv.
  - lia.
  - cbn. destruct (Z.ltb_spec i bound) as [_|Hge]; [|lia].
    destruct (Z.eq_dec i c) as [->|Hne].
    + rewrite (Hfault st Hinv). reflexivity.
    + destruct (Hstep i st ltac:(lia) Hinv) as (s' & -> & Hinv'). cbn.
      apply IH; [|assumption|lia|lia|assumption].
      intros j s Hj. apply Hstep. lia.
Qed.

Lemma for_long_faults_at (Inv : Z -> St -> Prop) c f st :
  (forall j s, 0 <= j < c -> Inv j s ->
     exists s', body j s = Ok s' /\ Inv (j + 1) s') ->
  (forall s, Inv c s -> body c s = Fault f) ->
  0 <= c < bound -> Inv 0 st ->
  for_long bound body st = Fault f.
Proof.
  intros Hstep Hfault Hc Hinv. unfold for_long.
  apply (for_loop_faults_at Inv c); [assumption | assumption | lia | f_equal; lia | assumption].
Qed.

Lemma for_long_first_fault f st :
  1 <= bound -> body 0 st = Fault f -> for_long bound body st = Fault f.
Proof.
  intros Hb Hf.
  apply (for_long_faults_at (fun j s => j = 0 /\ s = st) 0); [lia | | lia | auto].
  intros s [_ ->]. exact Hf.
Qed.

(** What every successful trip preserves holds when the loop returns. *)
Lemma for_loop_preserves (P : St -> Prop) trips i st st' :
  (forall j s s', body j s = Ok s' -> P s -> P s') ->
  P st -> for_loop trips i bound body st = Ok st' -> P st'.
Proof.
  intros Hstep. revert i st. induction trips as [|trips IH]; intros i st HP.
  - cbn. intros [= <-]. assumption.
  - cbn. destruct (i <? bound); [|intros [= <-]; assumption].
    destruct (body i st) as [s|f] eqn:Hb; cbn; [|discriminate].
    apply IH. eapply Hstep; eassumption.
Qed.

End LoopOutcomes.

(** ** How the initialisation fails *)

Section InitFaults.

Variable e : env.
Variable size : Z.
Hypothesis size_pos : 1 <= size.

(** [malloc] returned the null pointer: the first write faults. *)
Lemma init_null_faults :
  malloc e (size_mul size sizeof_int) = None ->
  init_phase e size = Fault NullDeref.
Proof.
  intros Hm. unfold init_phase. rewrite Hm.
  apply for_long_first_fault; [assumption | reflexivity].
Qed.

(** [malloc] returned a block of fewer than [size] cells: the write just
    past its end faults. *)
Lemma init_short_faults (cells : list Z) :
  malloc e (size_mul size sizeof_int) = Some cells ->
  Z.of_nat (length cells) < size ->
  init_phase e size = Fault OutOfBounds.
Proof.
  intros Hm Hshort. unfold init_phase. rewrite Hm.
  apply (for_long_faults_at init_body size
           (fun _ p => exists cs : list Z, p = Some cs /\ length cs = length cells)
           (Z.of_nat (length cells))).
  - intros j p Hj (cs & -> & Hlen). unfold init_body, store.
    destruct (Z.leb_spec 0 j); [|lia].
    destruct (Z.ltb_spec j (Z.of_nat (length cs))); [|lia]. cbn.
    eexists. split; [reflexivity|]. eexists. split; [reflexivity|].
    rewrite length_insert. assumption.
  - intros p (cs & -> & Hlen). unfold init_body, store. rewrite Hlen.
    destruct (Z.leb_spec 0 (Z.of_nat (length cells))); [|lia].
    destruct (Z.ltb_spec (Z.of_nat (length cells)) (Z.of_nat (length cells))); [lia|].
    reflexivity.
  - lia.
  - eauto.
Qed.

(** When the byte count wraps, the block is shorter than [size]. *)
Lemma wrapped_block_short (cells : list Z) :
  size_modulus <= size * sizeof_int ->
  malloc e (size_mul size sizeof_int) = Some cells ->
  Z.of_nat (length cells) < size.
Proof.
  intros Hwrap Hm. apply malloc_cells in Hm as [_ ->].
  assert (Hb : 0 <= size_mul size sizeof_int < size_modulus).
  { unfold size_mul, to_size_t, size_modulus. apply Z.mod_pos_bound. lia. }
  unfold sizeof_int, size_modulus in *.
  rewrite Z2Nat.id by (apply Z.div_pos; lia).
  apply Z.div_lt_upper_bound; lia.
Qed.

End InitFaults.

Lemma run_init_fault e N size f :
  init_phase e size = Fault f -> run e N size = Fault f.
Proof. intros Hinit. unfold run, run_state. rewrite Hinit. reflexivity. Qed.

Lemma malloc_lookup e nbytes (cells : list Z) (k : nat) :
  malloc e nbytes = Some cells -> (k < length cells)%nat ->
  cells !! k = Some (stale e k).
Proof.
  unfold malloc. destruct (nbytes <=? heap_limit e); [|discriminate].
  intros [= <-]. rewrite length_map, length_seq. intros Hk.
  rewrite list_lookup_fmap, lookup_seq_lt by assumption. reflexivity.
Qed.

(** ** Faults of the whole program *)

(** X1.  A working-set size of 0 with at least one access: the first
    [i % size] divides by zero, whatever [malloc] returned. *)
Theorem zero_size_divides e N :
  1 <= N -> run e N 0 = Fault DivByZero.
Proof.
  intros HN. unfold run, run_state.
  rewrite init_phase_no_trip by lia. cbn.
  unfold access_phase. rewrite (for_long_first_fault _ _ DivByZero); auto.
Qed.

Lemma zero_size_divides_witness :
  1 <= 5 /\ run small_env 5 0 = Fault DivByZero.
Proof. split; [lia|]. apply (zero_size_divides small_env 5). lia. Defined.

(** X2.  The result of [malloc] is not checked: when it is the null
    pointer, the first write of the initialisation (for [size >= 1]) or the
    first read of the access loop (for [size < 0] and [N >= 1]) goes
    through it. *)
Theorem null_pointer_faults e N size :
  malloc e (size_mul size sizeof_int) = None ->
  1 <= size \/ (size < 0 /\ 1 <= N) ->
  run e N size = Fault NullDeref.
Proof.
  intros Hm [Hsz|[Hsz HN]].
  - apply run_init_fault, init_null_faults; assumption.
  - unfold run, run_state. rewrite init_phase_no_trip, Hm by lia. cbn.
    unfold access_phase. rewrite (for_long_first_fault _ _ NullDeref); auto.
    unfold access_body, long_rem.
    destruct (Z.eqb_spec size 0); [lia|]. reflexivity.
Qed.

Lemma null_pointer_faults_witness :
  (malloc small_env (size_mul 2000 sizeof_int) = None /\
   (1 <= 2000 \/ (2000 < 0 /\ 1 <= 5))) /\
  run small_env 5 2000 = Fault NullDeref.
Proof.
  split; [split; [reflexivity | left; lia]|].
  apply (null_pointer_faults small_env 5 2000); [reflexivity | left; lia].
Defined.

(** X3.  When [size * sizeof(int)] wraps around in [size_t] and [malloc]
    grants the wrapped request, the block is too short and the
    initialisation writes past its end. *)
Theorem wrapped_request_overruns e N size :
  size_modulus <= size * sizeof_int ->
  malloc e (size_mul size sizeof_int) <> None ->
  run e N size = Fault OutOfBounds.
Proof.
  intros Hwrap Hm.
  assert (Hsz : 1 <= size) by (unfold size_modulus, sizeof_int in Hwrap; lia).
  destruct (malloc e (size_mul size sizeof_int)) as [cells|] eqn:Hcells; [|contradiction].
  apply run_init_fault. eapply init_short_faults; [eassumption|].
  eapply wrapped_block_short; eassumption.
Qed.

Lemma wrapped_request_overruns_witness :
  (size_modulus <= (2 ^ 62 + 1) * sizeof_int /\
   malloc small_env (size_mul (2 ^ 62 + 1) sizeof_int) <> None) /\
  run small_env 1 (2 ^ 62 + 1) = Fault OutOfBounds.
Proof.
  split; [split; [vm_compute; discriminate | vm_compute; discriminate]|].
  apply (wrapped_request_overruns small_env 1 (2 ^ 62 + 1)); vm_compute; discriminate.
Defined.

(** X4.  For [size >= 1] the program returns normally exactly when the
    Buffer of [size] cells was allocated: it never prints after a refused
    or a wrapped allocation. *)
Theorem prints_iff_buffer e N size :
  1 <= size ->
  (exists x, run e N size = Ok x) <-> buffer_exists e size.
Proof.
  intros Hsz. split.
  - intros [x Hrun].
    destruct (malloc e (size_mul size sizeof_int)) as [cells|] eqn:Hm.
    + destruct (Z.lt_ge_cases (size * sizeof_int) size_modulus) as [Hfit|Hwrap].
      * apply buffer_exists_iff; [lia|]. split; [|assumption].
        apply malloc_cells in Hm as [Hlim _].
        rewrite size_mul_small in Hlim by (assumption || lia). assumption.
      * rewrite (run_init_fault e N size OutOfBounds) in Hrun; [discriminate|].
        eapply init_short_faults; [eassumption|].
        eapply wrapped_block_short; eassumption.
    + rewrite (run_init_fault e N size NullDeref) in Hrun; [discriminate|].
      apply init_null_faults; assumption.
  - intros Hbuf. destruct (Z.le_gt_cases 0 N) as [HN|HN].
    + eexists. apply run_reads; assumption.
    + eexists. unfold run.
      rewrite (run_state_no_access e N size (Some (index_buffer size))).
      * reflexivity.
      * lia.
      * apply init_phase_fills; [lia | assumption].
Qed.

Lemma prints_iff_buffer_witness :
  1 <= 3 /\ ((exists x, run small_env 7 3 = Ok x) <-> buffer_exists small_env 3).
Proof. split; [lia|]. apply (prints_iff_buffer small_env 7 3). lia. Defined.

(** ** Edge cases that do print *)

(** X5.  With no access to make ([N <= 0]) and no cell to fill
    ([size <= 0]) the program touches neither [A] nor the divisor and
    prints 0, even if [malloc] failed. *)
Theorem idle_run e N size :
  N <= 0 -> size <= 0 ->
  run e N size = Ok (Exit 0 ("0" ++ newline)%string).
Proof.
  intros HN Hsz. unfold run.
  rewrite (run_state_no_access e N size (malloc e (size_mul size sizeof_int)));
    [reflexivity | assumption | apply init_phase_no_trip; assumption].
Qed.

Lemma idle_run_witness :
  (0 <= 0 /\ 0 <= 0) /\ run small_env 0 0 = Ok (Exit 0 ("0" ++ newline)%string).
Proof. split; [lia|]. apply (idle_run small_env 0 0); lia. Defined.

(** X6.  A negative [size] leaves the block uninitialised, and [i % size]
    is [i] itself while [i < -size]: the program then sums whatever
    [malloc] left in the first [N] cells. *)
Theorem stale_reads e N size (cells : list Z) :
  size < 0 ->
  malloc e (size_mul size sizeof_int) = Some cells ->
  0 <= N <= Z.of_nat (length cells) -> N <= - size ->
  run e N size =
    Ok (Exit 0 (printf_d (to_int (exact_sum (fun j => stale e (Z.to_nat j))
                                            (Z.to_nat N))))).
Proof.
  intros Hsz Hm HN Hmag. unfold run, run_state.
  rewrite init_phase_no_trip, Hm by lia. cbn. unfold access_phase.
  pose (acc := fun i : Z =>
    if i =? 0 then 0
    else to_int (exact_sum (fun j => stale e (Z.to_nat j)) (Z.to_nat i))).
  destruct (for_long_invariant (access_body size) N
              (fun i st => st = {| A := Some cells; sink := acc i |})
              {| A := Some cells; sink := 0 |}) as (st & -> & ->).
  - intros j s Hj ->. eexists. split; [|reflexivity].
    unfold access_body, long_rem. cbn [A sink].
    destruct (Z.eqb_spec size 0); [lia|].
    destruct (Z.eqb_spec j long_min) as [Hmin|_]; [unfold long_min in Hmin; lia|].
    cbn. replace (Z.rem j size) with j; cycle 1.
    { rewrite <- (Z.opp_involutive size), Z.rem_opp_r, Z.rem_small by lia.
      reflexivity. }
    unfold load. destruct (Z.leb_spec 0 j); [|lia].
    rewrite (malloc_lookup e _ cells (Z.to_nat j) Hm) by lia. cbn.
    do 2 f_equal. unfold acc.
    destruct (Z.eqb_spec (j + 1) 0); [lia|].
    replace (Z.to_nat (j + 1)) with (S (Z.to_nat j)) by lia. cbn [exact_sum].
    cbv beta. rewrite ?Nat2Z.id, ?Z2Nat.id by lia.
    destruct (Z.eqb_spec j 0) as [->|_].
    + cbn [Z.to_nat exact_sum]. reflexivity.
    + apply int_add_to_int.
  - lia.
  - reflexivity.
  - cbn. unfold acc. destruct (Z.eqb_spec N 0) as [->|_]; reflexivity.
Qed.

Lemma stale_reads_witness :
  (- 2 ^ 62 + 1 < 0 /\
   malloc small_env (size_mul (- 2 ^ 62 + 1) sizeof_int) = Some [1000] /\
   0 <= 1 <= Z.of_nat (length [1000]) /\ 1 <= - (- 2 ^ 62 + 1)) /\
  run small_env 1 (- 2 ^ 62 + 1) = Ok (Exit 0 (printf_d 1000)).
Proof.
  split; [repeat split; solve [reflexivity | cbn; lia]|].
  apply (stale_reads small_env 1 (- 2 ^ 62 + 1) [1000]);
    solve [reflexivity | cbn; lia].
Defined.

(** ** The Buffer and the accumulator *)

(** X7.  [A[i]=i] stores a [long] into an [int]: after the initialisation
    cell [k] holds the low 32 bits of [k] as a signed number, whatever the
    block held before, and that is [k] itself exactly for [k <= INT_MAX]. *)
Theorem init_truncates e S k :
  1 <= S -> buffer_exists e S -> 0 <= k < S ->
  exists buf : list Z,
    init_phase e S = Ok (Some buf) /\ length buf = Z.to_nat S /\
    load (Some buf) k = Ok ((k + 2 ^ 31) mod 2 ^ 32 - 2 ^ 31) /\
    ((k + 2 ^ 31) mod 2 ^ 32 - 2 ^ 31 = k <-> k <= int_max).
Proof.
  intros HS Hbuf Hk. exists (index_buffer S).
  split; [apply init_phase_fills; assumption || lia|].
  split; [apply length_index_buffer|]. split.
  - unfold load. destruct (Z.leb_spec 0 k); [|lia].
    rewrite lookup_index_buffer, Z2Nat.id by lia. reflexivity.
  - pose proof (to_int_range k) as Hr. fold int_modulus. fold (to_int k). split.
    + intros Heq. lia.
    + intros Hfit. apply to_int_small. unfold int_min. lia.
Qed.

Lemma init_truncates_witness :
  (1 <= 3 /\ buffer_exists small_env 3 /\ 0 <= 2 < 3) /\
  exists buf : list Z,
    init_phase small_env 3 = Ok (Some buf) /\ length buf = Z.to_nat 3 /\
    load (Some buf) 2 = Ok ((2 + 2 ^ 31) mod 2 ^ 32 - 2 ^ 31) /\
    ((2 + 2 ^ 31) mod 2 ^ 32 - 2 ^ 31 = 2 <-> 2 <= int_max).
Proof.
  split; [repeat split; solve [lia | reflexivity]|].
  apply (init_truncates small_env 3 2); solve [lia | reflexivity].
Defined.

(** X8.  Every further full pass over the Buffer adds [S*(S-1)/2] to the
    accumulator, modulo [2^32]: if [N] accesses print [v], then
    [N + k*S] accesses print [v + k * (S*(S-1)/2)] reduced to an [int]. *)
Theorem full_passes_add e N S k :
  0 <= N -> 0 <= k -> 1 <= S -> buffer_exists e S ->
  exists v,
    run e N S = Ok (Exit 0 (printf_d v)) /\
    run e (N + k * S) S = Ok (Exit 0 (printf_d (to_int (v + k * (S * (S - 1) / 2))))).
Proof.
  intros HN Hk HS Hbuf. eexists. split; [apply run_closed_form; assumption|].
  rewrite run_closed_form by (assumption || nia).
  rewrite Z.div_add, Z.mod_add by lia.
  fold (triangle S).
  rewrite (Z.add_comm (to_int _)), to_int_add_r.
  replace (k * triangle S + (N / S * triangle S + triangle (N mod S)))
    with ((N / S + k) * triangle S + triangle (N mod S)) by lia.
  reflexivity.
Qed.

Lemma full_passes_add_witness :
  (0 <= 1 /\ 0 <= 2 /\ 1 <= 3 /\ buffer_exists small_env 3) /\
  exists v,
    run small_env 1 3 = Ok (Exit 0 (printf_d v)) /\
    run small_env (1 + 2 * 3) 3 = Ok (Exit 0 (printf_d (to_int (v + 2 * (3 * (3 - 1) / 2))))).
Proof.
  split; [repeat split; solve [lia | reflexivity]|].
  apply (full_passes_add small_env 1 3 2); solve [lia | reflexivity].
Defined.

(** X9.  Whatever the command line and the allocator, a run that returns
    normally has exit status 0 and has written exactly one line: the
    numeral of a value between [INT_MIN] and [INT_MAX]. *)
Theorem normal_exit_shape e argv x :
  main e argv = Ok x ->
  status x = 0 /\
  exists v, int_min <= v <= int_max /\ stdout x = printf_d v.
Proof.
  unfold main. destruct (parse_args argv) as [N size]. unfold run.
  destruct (run_state e N size) as [st|f] eqn:Hst; cbn; [|discriminate].
  intros [= <-]. cbn. split; [reflexivity|]. exists (sink st).
  split; [|reflexivity].
  unfold run_state in Hst.
  destruct (init_phase e size) as [p|f]; cbn in Hst; [|discriminate].
  unfold access_phase, for_long in Hst.
  apply (for_loop_preserves (access_body size) N
           (fun s => int_min <= sink s <= int_max)) in Hst; [assumption | | ].
  - intros j s s'. unfold access_body.
    destruct (long_rem j size) as [idx|f]; cbn; [|discriminate].
    destruct (load (A s) idx) as [v|f]; cbn; [|discriminate].
    intros [= <-] _. cbn. apply to_int_range.
  - cbn. unfold int_min, int_max. lia.
Qed.

Lemma normal_exit_shape_witness :
  main small_env ["micro_load"; "7"; "3"]%string
    = Ok (Exit 0 ("6" ++ newline)%string) /\
  status (Exit 0 ("6" ++ newline)%string) = 0.
Proof.
  split; [reflexivity|].
  apply (normal_exit_shape small_env ["micro_load"; "7"; "3"]%string). reflexivity.
Defined.



